(** * DHT routing core (src/main.cpp): buckets, bucket list, node

    A shallow embedding of the three classes of src/main.cpp and of the
    two library types they compute with.  Unsigned fixed-width integers are
    [Z] with the wrap-around written out; [std::list] is [list]; a member
    function that may throw returns a sum; a member function that writes
    to [std::cout] returns what it wrote next to the object. *)

From Stdlib Require Import ZArith Zbitwise String Ascii Lia DecimalString.
From stdpp Require Import base list.

Local Open Scope Z_scope.

(** ** Fixed-width unsigned integers *)

Module uint.
(** The value an unsigned integer of [bits] bits holds after an
    assignment of [z]. *)
Definition wrap (bits z : Z) : Z := z mod 2 ^ bits.
End uint.

(** [uint256_t]: Boost's unchecked 256-bit unsigned integer. *)
Module uint256.
Definition bits : Z := 256.
Definition wrap (z : Z) : Z := uint.wrap bits z.
(** [operator^]. *)
Definition xor (a b : Z) : Z := Z.lxor a b.
End uint256.

(** ** [cpp_dec_float_100]

    Boost.Multiprecision's decimal floating-point number with 100 decimal
    digits of precision, as far as the source uses it: construction from an
    integer, [+=], [pow] at a whole exponent, [log2] under a cast to an
    integer, and the cast to [uint256_t].  A number is a mantissa of at most
    [digits10] digits and a power of ten; what does not fit is cut off. *)

Module cpp_dec_float_100.
Definition digits10 : Z := 100.

Record t := mk { mantissa : Z; exponent : Z }.

(** Drops low digits of [m] until at most [digits10] are left. *)
Fixpoint normalize (fuel : nat) (m e : Z) : t :=
  match fuel with
  | O => mk m e
  | S fuel' =>
      if Z.abs m <? 10 ^ digits10 then mk m e
      else normalize fuel' (Z.quot m 10) (e + 1)
  end.

Definition round (m e : Z) : t :=
  normalize (Z.to_nat (Z.log2 (Z.abs m) + 1)) m e.

(** [cpp_dec_float_100(z)] for an integer [z]. *)
Definition of_Z (z : Z) : t := round z 0.

(** [x + y] (and [x += y]). *)
Definition add (x y : t) : t :=
  let e := Z.min (exponent x) (exponent y) in
  round (mantissa x * 10 ^ (exponent x - e) + mantissa y * 10 ^ (exponent y - e)) e.

Definition mul (x y : t) : t :=
  round (mantissa x * mantissa y) (exponent x + exponent y).

(** The integer part: the digits before the decimal point. *)
Definition trunc (x : t) : Z :=
  if 0 <=? exponent x then mantissa x * 10 ^ exponent x
  else Z.quot (mantissa x) (10 ^ (- exponent x)).

(** [static_cast<uint256_t>(x)]. *)
Definition to_uint256 (x : t) : Z := uint256.wrap (trunc x).

(** The loop of the binary powering method: [p] is the part of the exponent
    still to be halved, [x] the current repeated square, [result] the
    product so far. *)
Fixpoint pow_loop (p : positive) (x result : t) : t :=
  match p with
  | xH => result
  | xO p' | xI p' =>
      let x' := mul x x in
      let result' := if Z.odd (Zpos p') then mul result x' else result in
      pow_loop p' x' result'
  end.

Definition pow_imp (x : t) (p : Z) : t :=
  match p with
  | Zpos q => pow_loop q x (if Z.odd p then x else of_Z 1)
  | _ => of_Z 1
  end.

(** [pow(x, a)] at an exponent [a] that is a whole number, which is where
    the source calls it: Boost then raises [x] by the binary method. *)
Definition pow (x a : t) : t := pow_imp x (trunc a).

(** [static_cast<uint32_t>(log2(x))] for [x >= 1]: the integer part of the
    binary logarithm, reduced to 32 bits. *)
Definition log2_trunc (x : t) : Z := uint.wrap 32 (Z.log2 (trunc x)).
End cpp_dec_float_100.

(** ** [class Bucket] *)

Module Bucket.
Record t := mk {
  (* List of references to nodes (contacts). *)
  contacts_ : list Z;
  (* Maximum number of contacts stored in a bucket. *)
  k_ : Z;
  (* Covered distance of nodes for this bucket. *)
  covered_distance_from_ : Z;
  covered_distance_to_ : Z
}.

(** [Bucket(covered_distance_from, covered_distance_to)]. *)
Definition new (covered_distance_from covered_distance_to : Z) : t :=
  {| contacts_ := [];
     k_ := uint.wrap 8 20;
     covered_distance_from_ := covered_distance_from;
     covered_distance_to_ := covered_distance_to |}.

(** What [Put] throws. *)
Inductive exn : Type :=
| out_of_range (what : string).

(** [std::to_string] of an integer. *)
Definition to_string (z : Z) : string := NilZero.string_of_int (Z.to_int z).

(** [Put(node_id)]: the bucket with the contact appended, or the exception
    thrown. *)
Definition Put (b : t) (node_id : Z) : exn + t :=
  if Z.of_nat (length (contacts_ b)) <? k_ b then
    inr {| contacts_ := contacts_ b ++ [node_id];
           k_ := k_ b;
           covered_distance_from_ := covered_distance_from_ b;
           covered_distance_to_ := covered_distance_to_ b |}
  else
    inl (out_of_range ("Bucket size must be less or equal " ++ to_string (k_ b))%string).

(** The bucket as a call of [Put] leaves it: an exception is thrown before
    anything is written. *)
Definition after_Put (b : t) (node_id : Z) : t :=
  match Put b node_id with
  | inr b' => b'
  | inl _ => b
  end.

Definition CoveredDistanceFrom (b : t) : Z := covered_distance_from_ b.
Definition CoveredDistanceTo (b : t) : Z := covered_distance_to_ b.

(** Number of contacts held. *)
Definition size (b : t) : nat := length (contacts_ b).

(** [d] lies in the covered half-open range. *)
Definition covers (b : t) (d : Z) : Prop :=
  CoveredDistanceFrom b <= d < CoveredDistanceTo b.
End Bucket.

(** ** [class BucketList] *)

Module BucketList.
Definition SHA1_HASH_SIZE : Z := 160.

Record t := mk { bucket_list_ : list Bucket.t }.

(** One turn of the constructor's loop: the bucket of [index] is built and
    pushed to the back of the list. *)
Definition new_step (buckets : list Bucket.t) (index : Z) : list Bucket.t :=
  let covered_distance_from :=
    cpp_dec_float_100.pow (cpp_dec_float_100.of_Z 2) (cpp_dec_float_100.of_Z index) in
  let covered_distance_to :=
    cpp_dec_float_100.pow (cpp_dec_float_100.of_Z 2) (cpp_dec_float_100.of_Z (index + 1)) in
  let bucket :=
    Bucket.new (cpp_dec_float_100.to_uint256 covered_distance_from)
               (cpp_dec_float_100.to_uint256 covered_distance_to) in
  buckets ++ [bucket].

(** [BucketList()]: [index] runs from 0 while [index < SHA1_HASH_SIZE]. *)
Definition new : t :=
  {| bucket_list_ := fold_left new_step (seqZ 0 SHA1_HASH_SIZE) [] |}.

(** [Push(other_node, distance)]: the list as the call leaves it and the
    level written to the output.  The line written also shows the
    logarithm before the cast, which is not kept here.  [Node] is only
    declared where [Push] is defined and [other_node] is not used, so its
    type is left open. *)
Definition Push {Node : Type} (bl : t) (other_node : Node) (distance : Z) : t * Z :=
  let d := cpp_dec_float_100.of_Z distance in
  let d := cpp_dec_float_100.add d (cpp_dec_float_100.of_Z 4) in
  (bl, cpp_dec_float_100.log2_trunc d).
End BucketList.

(** ** [class SHA1] (sha1.hpp) *)

Module SHA1.
(** The sixteen lower-case digits a stream in [std::hex] mode writes. *)
Definition hex_char (d : Z) : ascii :=
  match d with
  | 0 => "0" | 1 => "1" | 2 => "2" | 3 => "3" | 4 => "4" | 5 => "5"
  | 6 => "6" | 7 => "7" | 8 => "8" | 9 => "9" | 10 => "a" | 11 => "b"
  | 12 => "c" | 13 => "d" | 14 => "e" | _ => "f"
  end%char.

(** [z] in [n] hexadecimal digits, the most significant first. *)
Fixpoint hex_fixed (n : nat) (z : Z) : string :=
  match n with
  | O => EmptyString
  | S n' => (hex_fixed n' (z / 16) ++ String (hex_char (z mod 16)) EmptyString)%string
  end.

(** Modelled from the spec: sha1.hpp is not among the sources.  The
    checksum object is taken as the data it has been fed. *)
Record t := mk { buffer : string }.

(** Modelled from the spec: the object [SHA1 checksum] declares. *)
Definition init : t := mk EmptyString.

(** Modelled from the spec: [update(data)] feeds [data] to the checksum. *)
Definition update (c : t) (data : string) : t := mk (buffer c ++ data)%string.

Section Digest.
Variable digest : string -> Z.

(** Modelled from the spec: [final()] of sha1.hpp, which is not among the
    sources.  The spec takes the identifier as a fixed-width 160-bit value,
    however it is derived, and the source calls 160 the length of an SHA1
    digest.  The digest of the data is therefore any function [digest], of
    which 160 bits are kept, and [final] writes them as 40 hexadecimal
    digits. *)
Definition final (c : t) : string :=
  hex_fixed 40 (digest (buffer c) mod 2 ^ 160).
End Digest.
End SHA1.

(** ** Reading a [uint256_t] from a stream in [std::hex] mode *)

Module hex_stream.
(** The value of a hexadecimal digit, in either case. *)
Definition hex_value (c : ascii) : option Z :=
  let n := Z.of_N (N_of_ascii c) in
  if (48 <=? n) && (n <=? 57) then Some (n - 48)
  else if (97 <=? n) && (n <=? 102) then Some (n - 87)
  else if (65 <=? n) && (n <=? 70) then Some (n - 55)
  else None.

(** Takes digits while there are some; [acc] is the value read so far. *)
Fixpoint read_digits (s : string) (acc : Z) : Z :=
  match s with
  | EmptyString => acc
  | String c s' =>
      match hex_value c with
      | Some d => read_digits s' (16 * acc + d)
      | None => acc
      end
  end.

(** [ss >> temp_id] for a default-constructed [temp_id]: the leading run of
    hexadecimal digits is its value, cut to 256 bits; with no digit the
    read fails and [temp_id] stays 0.  Signs and a [0x] prefix, which the
    stream would also take, do not occur in what [GenerateID] reads and
    are left out. *)
Definition read_uint256 (s : string) : Z := uint256.wrap (read_digits s 0).
End hex_stream.

(** ** [class Node] *)

Module Node.
(** The identifier and the bucket list.  The socket address and the three
    time stamps are set from the clock and read nowhere. *)
Record t := mk {
  id_ : Z;
  bucket_list_ : BucketList.t
}.

Definition GetID (n : t) : Z := id_ n.

(** Distance between ID1 and ID2: ID1 XOR ID2. *)
Definition CalculateDistance (n other_node : t) : Z :=
  uint256.xor (id_ n) (GetID other_node).

(** [AddToList(other_node)]: the node as the call leaves it, and the level
    [Push] wrote. *)
Definition AddToList (n other_node : t) : t * Z :=
  let distance := CalculateDistance n other_node in
  let '(bl, level) := BucketList.Push (bucket_list_ n) other_node distance in
  ({| id_ := id_ n; bucket_list_ := bl |}, level).

Section Digest.
Variable digest : string -> Z.

(** [GenerateID(raw_data)]: the digest is written in hexadecimal and
    followed by [std::endl], then read back as a number. *)
Definition GenerateID (raw_data : string) : Z :=
  let checksum := SHA1.update SHA1.init raw_data in
  let ss := (SHA1.final digest checksum ++ String (ascii_of_nat 10) EmptyString)%string in
  let temp_id := hex_stream.read_uint256 ss in
  temp_id.

(** [Node(raw_data)]. *)
Definition new (raw_data : string) : t :=
  {| id_ := GenerateID raw_data; bucket_list_ := BucketList.new |}.
End Digest.
End Node.

(** ** States and ranges *)

(** The bucket lists a node can hold: the constructed one, and what [Push]
    (the only member function there is) leaves behind. *)
Inductive reachable : BucketList.t -> Prop :=
| reachable_new : reachable BucketList.new
| reachable_Push (bl : BucketList.t) (other_node : Node.t) (distance : Z) :
    reachable bl -> reachable (fst (BucketList.Push bl other_node distance)).

(** The buckets of [bl] cut the distances [lo <= d < hi] into ranges: every
    such distance lies in a bucket and no other distance does, no distance
    lies in two buckets, and each bucket ends where the next one starts. *)
Definition partitions (lo hi : Z) (bl : BucketList.t) : Prop :=
  (forall d : Z,
      lo <= d < hi <->
      exists b, b ∈ BucketList.bucket_list_ bl /\ Bucket.covers b d)
  /\ (forall (i j : nat) (bi bj : Bucket.t) (d : Z),
      BucketList.bucket_list_ bl !! i = Some bi ->
      BucketList.bucket_list_ bl !! j = Some bj ->
      Bucket.covers bi d -> Bucket.covers bj d -> i = j)
  /\ (forall (i : nat) (bi bj : Bucket.t),
      BucketList.bucket_list_ bl !! i = Some bi ->
      BucketList.bucket_list_ bl !! S i = Some bj ->
      Bucket.CoveredDistanceTo bi = Bucket.CoveredDistanceFrom bj).

(** The bucket whose range runs from [2 ^ index] up to [2 ^ (index + 1)]. *)
Definition bucket_of_index (index : Z) : Bucket.t :=
  Bucket.new (2 ^ index) (2 ^ (index + 1)).

(** The capacity invariant: [k_] stays 20 and the size stays within it. *)
Definition within_capacity (b : Bucket.t) : Prop :=
  Bucket.k_ b = 20 /\ (Bucket.size b <= 20)%nat.

(** The contact lists of all buckets, in order. *)
Definition all_contacts (bl : BucketList.t) : list (list Z) :=
  map Bucket.contacts_ (BucketList.bucket_list_ bl).

(** ** The decimal floating-point numbers of the constructor *)

(** A mantissa of at most [digits10] digits is kept as it is. *)
Lemma round_small (m e : Z) :
  Z.abs m < 10 ^ cpp_dec_float_100.digits10 ->
  cpp_dec_float_100.round m e = cpp_dec_float_100.mk m e.
Proof.
  intros Hm. unfold cpp_dec_float_100.round.
  assert (Hlog : 0 <= Z.log2 (Z.abs m)) by apply Z.log2_nonneg.
  destruct (Z.to_nat (Z.log2 (Z.abs m) + 1)) as [|fuel] eqn:Hfuel; [lia|].
  simpl. apply Z.ltb_lt in Hm. rewrite Hm. reflexivity.
Qed.

(** An integer of at most [digits10] digits becomes a number with that value. *)
Lemma trunc_of_Z (z : Z) :
  Z.abs z < 10 ^ cpp_dec_float_100.digits10 ->
  cpp_dec_float_100.trunc (cpp_dec_float_100.of_Z z) = z.
Proof.
  intros Hz. unfold cpp_dec_float_100.of_Z. rewrite round_small by exact Hz.
  unfold cpp_dec_float_100.trunc. simpl. lia.
Qed.

(** The powers of two the constructor asks for, each checked by running the
    binary method. *)
Lemma pow2_exact_all :
  forallb
    (fun n => cpp_dec_float_100.to_uint256
                (cpp_dec_float_100.pow (cpp_dec_float_100.of_Z 2) (cpp_dec_float_100.of_Z n))
              =? 2 ^ n)
    (seqZ 0 161) = true.
Proof. vm_compute. reflexivity. Qed.

Lemma pow2_exact (n : Z) :
  0 <= n <= 160 ->
  cpp_dec_float_100.to_uint256
    (cpp_dec_float_100.pow (cpp_dec_float_100.of_Z 2) (cpp_dec_float_100.of_Z n)) = 2 ^ n.
Proof.
  intros Hn. pose proof pow2_exact_all as Hall.
  rewrite forallb_forall in Hall. apply Z.eqb_eq, Hall.
  apply list_elem_of_In, elem_of_seqZ. lia.
Qed.

(** ** The constructed bucket list *)

Lemma fold_new_step (indices : list Z) (buckets : list Bucket.t) :
  (forall index, index ∈ indices -> 0 <= index < 160) ->
  fold_left BucketList.new_step indices buckets = buckets ++ (bucket_of_index <$> indices).
Proof.
  revert buckets. induction indices as [|index indices IH]; intros buckets Hrange; simpl.
  - rewrite app_nil_r. reflexivity.
  - rewrite IH by (intros j Hj; apply Hrange; right; exact Hj).
    assert (Hindex : 0 <= index < 160) by (apply Hrange; left).
    unfold BucketList.new_step. rewrite !pow2_exact by lia.
    rewrite <- app_assoc. reflexivity.
Qed.

Lemma new_buckets :
  BucketList.bucket_list_ BucketList.new = bucket_of_index <$> seqZ 0 160.
Proof.
  unfold BucketList.new, BucketList.SHA1_HASH_SIZE. cbn [BucketList.bucket_list_].
  rewrite fold_new_step; [reflexivity|].
  intros index Hin. apply elem_of_seqZ in Hin. lia.
Qed.

Lemma new_lookup (i : nat) (b : Bucket.t) :
  BucketList.bucket_list_ BucketList.new !! i = Some b <->
  (i < 160)%nat /\ b = bucket_of_index (Z.of_nat i).
Proof.
  rewrite new_buckets, list_lookup_fmap. split.
  - intros H. destruct (seqZ 0 160 !! i) as [index|] eqn:Hi; [|discriminate].
    apply lookup_seqZ in Hi. injection H as <-. destruct Hi as [-> Hlt].
    split; [lia|]. f_equal.
  - intros [Hlt ->]. rewrite lookup_seqZ_lt by lia. reflexivity.
Qed.

Lemma new_elem (b : Bucket.t) :
  b ∈ BucketList.bucket_list_ BucketList.new <->
  exists index, 0 <= index < 160 /\ b = bucket_of_index index.
Proof.
  rewrite new_buckets, list_elem_of_fmap. split.
  - intros (index & -> & Hin). apply elem_of_seqZ in Hin. exists index. split; [lia|reflexivity].
  - intros (index & Hrange & ->). exists index. split; [reflexivity|]. apply elem_of_seqZ. lia.
Qed.

Lemma covers_bucket_of_index (index d : Z) :
  0 <= index ->
  Bucket.covers (bucket_of_index index) d <-> 0 < d /\ Z.log2 d = index.
Proof.
  intros Hindex. unfold Bucket.covers, bucket_of_index; simpl. split.
  - intros [Hlo Hhi].
    assert (0 < 2 ^ index) by (apply Z.pow_pos_nonneg; lia).
    split; [lia|]. apply Z.log2_unique; [lia|]. split; [exact Hlo|].
    replace (Z.succ index) with (index + 1) by lia. exact Hhi.
  - intros [Hpos <-]. pose proof (Z.log2_spec d Hpos) as Hspec.
    replace (Z.succ (Z.log2 d)) with (Z.log2 d + 1) in Hspec by lia. exact Hspec.
Qed.

(** [Push] hands the list back as it got it. *)
Lemma Push_fst {Node : Type} (bl : BucketList.t) (other_node : Node) (distance : Z) :
  fst (BucketList.Push bl other_node distance) = bl.
Proof. reflexivity. Qed.

(** [AddToList] hands the node back as it got it. *)
Lemma AddToList_fst (n other_node : Node.t) : fst (Node.AddToList n other_node) = n.
Proof. destruct n as [id bl]. reflexivity. Qed.

Lemma reachable_is_new (bl : BucketList.t) : reachable bl -> bl = BucketList.new.
Proof.
  induction 1 as [|bl other_node distance Hreach IH].
  - reflexivity.
  - rewrite Push_fst. exact IH.
Qed.

Lemma new_partitions : partitions 1 (2 ^ 160) BucketList.new.
Proof.
  split; [|split].
  - intros d. split.
    + intros [Hlo Hhi]. exists (bucket_of_index (Z.log2 d)).
      assert (Hlog : 0 <= Z.log2 d) by apply Z.log2_nonneg.
      assert (Hlt : Z.log2 d < 160) by (apply Z.log2_lt_pow2; lia).
      split.
      * apply new_elem. exists (Z.log2 d). split; [lia|reflexivity].
      * apply covers_bucket_of_index; [lia|]. split; [lia|reflexivity].
    + intros (b & Hin & Hcov). apply new_elem in Hin as (index & Hrange & ->).
      apply covers_bucket_of_index in Hcov as [Hpos Hlog]; [|lia].
      split; [lia|]. apply Z.log2_lt_pow2; lia.
  - intros i j bi bj d Hi Hj Hci Hcj.
    apply new_lookup in Hi as [_ ->]. apply new_lookup in Hj as [_ ->].
    apply covers_bucket_of_index in Hci as [_ Hi]; [|lia].
    apply covers_bucket_of_index in Hcj as [_ Hj]; [|lia]. lia.
  - intros i bi bj Hi Hj.
    apply new_lookup in Hi as [_ ->]. apply new_lookup in Hj as [_ ->].
    unfold bucket_of_index, Bucket.CoveredDistanceTo, Bucket.CoveredDistanceFrom; simpl.
    f_equal. lia.
Qed.

(** ** Buckets under [Put] *)

Lemma new_k (covered_distance_from covered_distance_to : Z) :
  Bucket.k_ (Bucket.new covered_distance_from covered_distance_to) = 20.
Proof. reflexivity. Qed.

Lemma Put_room (b : Bucket.t) (node_id : Z) :
  Z.of_nat (Bucket.size b) < Bucket.k_ b ->
  Bucket.Put b node_id =
  inr (Bucket.mk (Bucket.contacts_ b ++ [node_id]) (Bucket.k_ b)
         (Bucket.covered_distance_from_ b) (Bucket.covered_distance_to_ b)).
Proof.
  intros Hroom. unfold Bucket.Put, Bucket.size in *.
  destruct (Z.ltb_spec (Z.of_nat (length (Bucket.contacts_ b))) (Bucket.k_ b)); [reflexivity|lia].
Qed.

Lemma Put_full (b : Bucket.t) (node_id : Z) :
  Bucket.k_ b <= Z.of_nat (Bucket.size b) ->
  Bucket.Put b node_id =
  inl (Bucket.out_of_range
         ("Bucket size must be less or equal " ++ Bucket.to_string (Bucket.k_ b))%string).
Proof.
  intros Hfull. unfold Bucket.Put, Bucket.size in *.
  destruct (Z.ltb_spec (Z.of_nat (length (Bucket.contacts_ b))) (Bucket.k_ b)); [lia|reflexivity].
Qed.

Lemma after_Put_within_capacity (b : Bucket.t) (node_id : Z) :
  within_capacity b -> within_capacity (Bucket.after_Put b node_id).
Proof.
  intros [Hk Hsize]. unfold Bucket.after_Put.
  destruct (Z.lt_ge_cases (Z.of_nat (Bucket.size b)) (Bucket.k_ b)) as [Hroom|Hfull].
  - rewrite Put_room by exact Hroom. split; [exact Hk|].
    unfold Bucket.size in *. simpl. rewrite length_app. simpl. lia.
  - rewrite Put_full by exact Hfull. split; assumption.
Qed.

Lemma Puts_within_capacity (node_ids : list Z) (b : Bucket.t) :
  within_capacity b -> within_capacity (fold_left Bucket.after_Put node_ids b).
Proof.
  revert b. induction node_ids as [|node_id node_ids IH]; intros b Hb; simpl.
  - exact Hb.
  - apply IH, after_Put_within_capacity, Hb.
Qed.

Lemma new_within_capacity (covered_distance_from covered_distance_to : Z) :
  within_capacity (Bucket.new covered_distance_from covered_distance_to).
Proof. split; [reflexivity|]. unfold Bucket.size. simpl. lia. Qed.

(** ** Writing and reading the identifier *)

Lemma hex_value_hex_char_all :
  forallb (fun d => match hex_stream.hex_value (SHA1.hex_char d) with
                    | Some d' => d' =? d
                    | None => false
                    end) (seqZ 0 16) = true.
Proof. vm_compute. reflexivity. Qed.

Lemma hex_value_hex_char (d : Z) :
  0 <= d < 16 -> hex_stream.hex_value (SHA1.hex_char d) = Some d.
Proof.
  intros Hd. pose proof hex_value_hex_char_all as Hall.
  rewrite forallb_forall in Hall.
  specialize (Hall d). destruct (hex_stream.hex_value (SHA1.hex_char d)) as [d'|].
  - f_equal. apply Z.eqb_eq, Hall, list_elem_of_In, elem_of_seqZ. lia.
  - exfalso. enough (false = true) by discriminate.
    apply Hall, list_elem_of_In, elem_of_seqZ. lia.
Qed.

Lemma append_assoc (s1 s2 s3 : string) :
  ((s1 ++ s2) ++ s3 = s1 ++ (s2 ++ s3))%string.
Proof. induction s1 as [|c s1 IH]; simpl; [reflexivity|]. rewrite IH. reflexivity. Qed.

(** Reading [n] digits written by [hex_fixed] shifts the value read so far
    by [n] digits and adds the [n] low digits of [z]. *)
Lemma read_digits_hex_fixed (n : nat) (z : Z) (rest : string) (acc : Z) :
  hex_stream.read_digits (SHA1.hex_fixed n z ++ rest) acc =
  hex_stream.read_digits rest (acc * 16 ^ Z.of_nat n + z mod 16 ^ Z.of_nat n).
Proof.
  revert z rest acc. induction n as [|n IH]; intros z rest acc.
  - simpl. rewrite Z.mod_1_r. f_equal. lia.
  - cbn [SHA1.hex_fixed]. rewrite append_assoc, IH.
    cbn [String.append hex_stream.read_digits].
    rewrite hex_value_hex_char by (apply Z.mod_pos_bound; lia).
    f_equal. rewrite Nat2Z.inj_succ, Z.pow_succ_r by lia.
    assert (Hpow : 0 < 16 ^ Z.of_nat n) by (apply Z.pow_pos_nonneg; lia).
    rewrite (Z.rem_mul_r z 16 (16 ^ Z.of_nat n)) by lia. lia.
Qed.

Lemma GenerateID_digest (digest : string -> Z) (raw_data : string) :
  Node.GenerateID digest raw_data = digest raw_data mod 2 ^ 160.
Proof.
  unfold Node.GenerateID, hex_stream.read_uint256, SHA1.final.
  rewrite read_digits_hex_fixed. cbn [hex_stream.read_digits SHA1.update SHA1.buffer SHA1.init String.append].
  replace (hex_stream.hex_value (ascii_of_nat 10)) with (@None Z) by reflexivity.
  change (16 ^ Z.of_nat 40) with (2 ^ 160).
  rewrite Z.mod_mod by lia. rewrite Z.mul_0_l, Z.add_0_l.
  pose proof (Z.mod_pos_bound (digest raw_data) (2 ^ 160) ltac:(lia)) as Hbound.
  unfold uint256.wrap, uint.wrap, uint256.bits. apply Z.mod_small.
  assert (2 ^ 160 < 2 ^ 256) by (apply Z.pow_lt_mono_r; lia). lia.
Qed.

(** ** Runs on concrete inputs *)

Example Put_into_empty : Bucket.Put (Bucket.new 1 2) 7 = inr (Bucket.mk [7] 20 1 2).
Proof. reflexivity. Qed.

Example pow_2_160 :
  cpp_dec_float_100.to_uint256
    (cpp_dec_float_100.pow (cpp_dec_float_100.of_Z 2) (cpp_dec_float_100.of_Z 160)) = 2 ^ 160.
Proof. vm_compute. reflexivity. Qed.

(** Past [digits10] digits the powers are cut off: the numbers are floating
    point, not integers. *)
Example pow_2_400_cut :
  cpp_dec_float_100.trunc
    (cpp_dec_float_100.pow (cpp_dec_float_100.of_Z 2) (cpp_dec_float_100.of_Z 400)) <> 2 ^ 400.
Proof. vm_compute. discriminate. Qed.

Example Push_levels :
  map (fun distance => snd (BucketList.Push BucketList.new tt distance)) [1; 2; 3; 5; 8; 11; 13; 27; 100]
  = [2; 2; 2; 3; 3; 3; 4; 4; 6].
Proof. vm_compute. reflexivity. Qed.

Example GenerateID_of_digest :
  Node.GenerateID (fun _ => 0x2fd4e1c67a2d28fced849ee1bb76e7391b93eb12)
    "The quick brown fox jumps over the lazy dog" =
  0x2fd4e1c67a2d28fced849ee1bb76e7391b93eb12.
Proof. vm_compute. reflexivity. Qed.

(** ** The bucket ranges *)

(** C1, as amended: in every state of the bucket list that can be reached
    from construction, the buckets' covered ranges are contiguous, do not
    overlap, and together are exactly the distances from 1 up to (and
    without) 2^160.  Distance 0 lies in no bucket. *)
Theorem reachable_partitions_nonzero (bl : BucketList.t) :
  reachable bl -> partitions 1 (2 ^ 160) bl.
Proof.
  intros Hreach. rewrite (reachable_is_new bl Hreach). exact new_partitions.
Qed.

Lemma reachable_partitions_nonzero_witness :
  reachable (fst (BucketList.Push BucketList.new (Node.mk 0 BucketList.new) 5))
  /\ partitions 1 (2 ^ 160) (fst (BucketList.Push BucketList.new (Node.mk 0 BucketList.new) 5)).
Proof.
  split.
  - apply reachable_Push, reachable_new.
  - apply (reachable_partitions_nonzero
             (fst (BucketList.Push BucketList.new (Node.mk 0 BucketList.new) 5))).
    apply reachable_Push, reachable_new.
Defined.

(** C1 as the claim has it fails on the constructed list: distance 0 is in
    the identifier space and in no bucket. *)
Lemma full_space_not_partitioned :
  reachable BucketList.new /\
  0 <= 0 < 2 ^ 160 /\
  (forall b, b ∈ BucketList.bucket_list_ BucketList.new -> ~ Bucket.covers b 0) /\
  ~ partitions 0 (2 ^ 160) BucketList.new.
Proof.
  assert (Hnone : forall b, b ∈ BucketList.bucket_list_ BucketList.new -> ~ Bucket.covers b 0).
  { intros b Hin Hcov. destruct new_partitions as [Hunion _].
    assert (Hd : 1 <= 0 < 2 ^ 160) by (apply Hunion; exists b; split; assumption). lia. }
  split; [apply reachable_new|]. split; [lia|]. split; [exact Hnone|].
  intros [Hunion _].
  assert (Hd : 0 <= 0 < 2 ^ 160) by lia.
  apply Hunion in Hd as (b & Hin & Hcov). exact (Hnone b Hin Hcov).
Qed.

(** C6, as amended: at construction the bucket list holds exactly 160
    buckets, the one at index i covering the distances from 2^i up to 2^(i+1)
    and holding no contact; no reachable state has other buckets, none is
    split, added or removed later. *)
Theorem new_has_160_buckets :
  length (BucketList.bucket_list_ BucketList.new) = 160%nat
  /\ (forall i : nat, (i < 160)%nat ->
        BucketList.bucket_list_ BucketList.new !! i =
        Some (Bucket.new (2 ^ Z.of_nat i) (2 ^ (Z.of_nat i + 1))))
  /\ (forall bl, reachable bl ->
        BucketList.bucket_list_ bl = BucketList.bucket_list_ BucketList.new).
Proof.
  split; [|split].
  - rewrite new_buckets, length_fmap, length_seqZ. reflexivity.
  - intros i Hi. apply new_lookup. split; [exact Hi|reflexivity].
  - intros bl Hreach. rewrite (reachable_is_new bl Hreach). reflexivity.
Qed.

(** C6 as the claim has it fails: the constructed list is not one bucket
    that covers the whole identifier space. *)
Lemma new_is_not_one_bucket :
  ~ (exists b, BucketList.bucket_list_ BucketList.new = [b]
               /\ Bucket.CoveredDistanceFrom b = 0
               /\ Bucket.CoveredDistanceTo b = 2 ^ 160).
Proof.
  intros (b & Hone & _). apply (f_equal length) in Hone.
  rewrite new_buckets, length_fmap, length_seqZ in Hone. discriminate.
Qed.

(** ** Recording a contact *)

(** C10: [AddToList] leaves the node as it was, and with it the contact
    lists of all its buckets: nothing is inserted, removed or moved.  The
    same holds for [Push] on every bucket list and distance. *)
Theorem AddToList_keeps_contacts (n other_node : Node.t) :
  fst (Node.AddToList n other_node) = n
  /\ all_contacts (Node.bucket_list_ (fst (Node.AddToList n other_node)))
     = all_contacts (Node.bucket_list_ n)
  /\ (forall (bl : BucketList.t) (distance : Z),
        all_contacts (fst (BucketList.Push bl other_node distance)) = all_contacts bl).
Proof.
  split; [apply AddToList_fst|]. split.
  - rewrite AddToList_fst. reflexivity.
  - intros bl distance. rewrite Push_fst. reflexivity.
Qed.

(** C2 (the code at a failing input): a node with identifier 0 records a
    contact with identifier 1.  The distance is 1, which the bucket at index
    0 covers; the level [Push] works out is 2, where the bucket covers the
    distances from 4 up to 8, and no bucket holds the contact afterwards. *)
Theorem AddToList_misses_bucket :
  Node.CalculateDistance (Node.mk 0 BucketList.new) (Node.mk 1 BucketList.new) = 1
  /\ BucketList.bucket_list_ BucketList.new !! 0%nat = Some (Bucket.new 1 2)
  /\ Bucket.covers (Bucket.new 1 2) 1
  /\ snd (Node.AddToList (Node.mk 0 BucketList.new) (Node.mk 1 BucketList.new)) = 2
  /\ BucketList.bucket_list_ BucketList.new !! 2%nat = Some (Bucket.new 4 8)
  /\ ~ Bucket.covers (Bucket.new 4 8) 1
  /\ (forall b,
        b ∈ BucketList.bucket_list_
              (Node.bucket_list_
                 (fst (Node.AddToList (Node.mk 0 BucketList.new) (Node.mk 1 BucketList.new)))) ->
        Bucket.contacts_ b = []).
Proof.
  split; [reflexivity|].
  split; [apply new_lookup; split; [lia|reflexivity]|].
  split; [unfold Bucket.covers; simpl; lia|].
  split; [vm_compute; reflexivity|].
  split; [apply new_lookup; split; [lia|reflexivity]|].
  split; [unfold Bucket.covers; simpl; lia|].
  intros b Hin. rewrite AddToList_fst in Hin. cbn [Node.bucket_list_] in Hin.
  apply new_elem in Hin as (index & _ & ->). reflexivity.
Qed.

(** ** The capacity of a bucket *)

(** C3: a bucket that was constructed and then met any sequence of [Put]
    calls holds at most k = 20 contacts, and a further [Put] on it when it
    holds 20 leaves it as it is, so its count does not grow. *)
Theorem Put_never_exceeds_k
    (covered_distance_from covered_distance_to : Z) (node_ids : list Z) (node_id : Z) :
  let b := fold_left Bucket.after_Put node_ids
             (Bucket.new covered_distance_from covered_distance_to) in
  Bucket.k_ b = 20
  /\ (Bucket.size b <= 20)%nat
  /\ (Bucket.size (Bucket.after_Put b node_id) <= 20)%nat
  /\ (Bucket.size b = 20%nat ->
      Bucket.after_Put b node_id = b
      /\ Bucket.size (Bucket.after_Put b node_id) = Bucket.size b).
Proof.
  intros b.
  assert (Hb : within_capacity b) by apply Puts_within_capacity, new_within_capacity.
  destruct Hb as [Hk Hsize].
  split; [exact Hk|]. split; [exact Hsize|]. split.
  - apply after_Put_within_capacity. split; assumption.
  - intros Hfull. assert (Hsame : Bucket.after_Put b node_id = b).
    { unfold Bucket.after_Put. rewrite Put_full by lia. reflexivity. }
    rewrite Hsame. split; reflexivity.
Qed.

(** C4, as amended: [Put] on a bucket that already holds k = 20 contacts
    throws [std::out_of_range] with the message "Bucket size must be less or
    equal 20" to its caller and leaves the bucket as it was; [Put] on a
    bucket with fewer contacts returns normally. *)
Theorem Put_full_throws
    (covered_distance_from covered_distance_to : Z) (node_ids : list Z) (node_id : Z) :
  let b := fold_left Bucket.after_Put node_ids
             (Bucket.new covered_distance_from covered_distance_to) in
  (Bucket.size b = 20%nat ->
     Bucket.Put b node_id = inl (Bucket.out_of_range "Bucket size must be less or equal 20")
     /\ Bucket.after_Put b node_id = b)
  /\ ((Bucket.size b < 20)%nat -> exists b', Bucket.Put b node_id = inr b').
Proof.
  intros b.
  assert (Hb : within_capacity b) by apply Puts_within_capacity, new_within_capacity.
  destruct Hb as [Hk Hsize]. split.
  - intros Hfull. unfold Bucket.after_Put. rewrite Put_full by lia. rewrite Hk.
    split; reflexivity.
  - intros Hroom. rewrite Put_room by lia. eexists. reflexivity.
Qed.

(** C4 as the claim has it fails: the twenty-first [Put] on a bucket does
    not return normally, it throws. *)
Lemma Put_on_full_bucket_is_an_error :
  Bucket.size (fold_left Bucket.after_Put (repeat 7 20) (Bucket.new 4 8)) = 20%nat
  /\ Bucket.Put (fold_left Bucket.after_Put (repeat 7 20) (Bucket.new 4 8)) 9
     = inl (Bucket.out_of_range "Bucket size must be less or equal 20")
  /\ ~ (exists b', Bucket.Put (fold_left Bucket.after_Put (repeat 7 20) (Bucket.new 4 8)) 9
                   = inr b').
Proof.
  assert (Hthrow :
            Bucket.Put (fold_left Bucket.after_Put (repeat 7 20) (Bucket.new 4 8)) 9
            = inl (Bucket.out_of_range "Bucket size must be less or equal 20"))
    by reflexivity.
  split; [reflexivity|]. split; [exact Hthrow|].
  intros (b' & Hput). rewrite Hthrow in Hput. discriminate Hput.
Qed.

(** C5, as amended: for a contact already present in a bucket with fewer
    than k entries, [Put] with the same identifier returns normally and
    appends one more entry for it at the most-recently-seen end: the entries
    that were there stay in place and the count grows by one. *)
Theorem Put_present_appends (b : Bucket.t) (node_id : Z) :
  node_id ∈ Bucket.contacts_ b ->
  Z.of_nat (Bucket.size b) < Bucket.k_ b ->
  exists b',
    Bucket.Put b node_id = inr b'
    /\ Bucket.contacts_ b' = Bucket.contacts_ b ++ [node_id]
    /\ last (Bucket.contacts_ b') = Some node_id
    /\ Bucket.size b' = S (Bucket.size b).
Proof.
  intros _ Hroom. rewrite Put_room by exact Hroom. eexists. split; [reflexivity|].
  cbn [Bucket.contacts_]. split; [reflexivity|]. split.
  - apply last_snoc.
  - unfold Bucket.size. cbn [Bucket.contacts_]. rewrite length_app. simpl. lia.
Qed.

Lemma Put_present_appends_witness :
  7 ∈ Bucket.contacts_ (Bucket.after_Put (Bucket.new 4 8) 7)
  /\ Z.of_nat (Bucket.size (Bucket.after_Put (Bucket.new 4 8) 7))
     < Bucket.k_ (Bucket.after_Put (Bucket.new 4 8) 7)
  /\ exists b',
       Bucket.Put (Bucket.after_Put (Bucket.new 4 8) 7) 7 = inr b'
       /\ Bucket.contacts_ b' = Bucket.contacts_ (Bucket.after_Put (Bucket.new 4 8) 7) ++ [7]
       /\ last (Bucket.contacts_ b') = Some 7
       /\ Bucket.size b' = S (Bucket.size (Bucket.after_Put (Bucket.new 4 8) 7)).
Proof.
  assert (Hin : 7 ∈ Bucket.contacts_ (Bucket.after_Put (Bucket.new 4 8) 7))
    by (simpl; left).
  assert (Hroom : Z.of_nat (Bucket.size (Bucket.after_Put (Bucket.new 4 8) 7))
                  < Bucket.k_ (Bucket.after_Put (Bucket.new 4 8) 7))
    by (vm_compute; reflexivity).
  split; [exact Hin|]. split; [exact Hroom|].
  exact (Put_present_appends (Bucket.after_Put (Bucket.new 4 8) 7) 7 Hin Hroom).
Defined.

(** C5 as the claim has it fails: recording contact 7 a second time
    changes the count from 1 to 2 and leaves two entries for it. *)
Lemma Put_same_contact_grows :
  7 ∈ Bucket.contacts_ (Bucket.after_Put (Bucket.new 4 8) 7)
  /\ Bucket.size (Bucket.after_Put (Bucket.new 4 8) 7) = 1%nat
  /\ Bucket.size (Bucket.after_Put (Bucket.after_Put (Bucket.new 4 8) 7) 7) = 2%nat
  /\ Bucket.contacts_ (Bucket.after_Put (Bucket.after_Put (Bucket.new 4 8) 7) 7) = [7; 7]
  /\ Bucket.size (Bucket.after_Put (Bucket.after_Put (Bucket.new 4 8) 7) 7)
     <> Bucket.size (Bucket.after_Put (Bucket.new 4 8) 7).
Proof.
  split; [simpl; left|]. split; [reflexivity|]. split; [reflexivity|].
  split; [reflexivity|]. discriminate.
Qed.

(** ** Identifiers and distance *)

(** C7: the distance between two nodes is the XOR of their identifiers; it
    is the same in both directions, and from a node to itself it is 0. *)
Theorem CalculateDistance_xor (n1 n2 : Node.t) :
  Node.CalculateDistance n1 n2 = Z.lxor (Node.GetID n1) (Node.GetID n2)
  /\ Node.CalculateDistance n1 n2 = Node.CalculateDistance n2 n1
  /\ Node.CalculateDistance n1 n1 = 0.
Proof.
  unfold Node.CalculateDistance, Node.GetID, uint256.xor.
  split; [reflexivity|]. split.
  - apply Z.lxor_comm.
  - apply Z.lxor_nilpotent.
Qed.

(** C9: for every input string, and whatever the digest function is, the
    identifier [GenerateID] produces is the 160-bit digest itself: it is
    below 2^160, so it fits in 160 of the 256 bits; the identifier of a
    constructed node is that value. *)
Theorem GenerateID_below_2_160 (digest : string -> Z) (raw_data : string) :
  0 <= Node.GenerateID digest raw_data < 2 ^ 160
  /\ Node.GenerateID digest raw_data = digest raw_data mod 2 ^ 160
  /\ Node.GetID (Node.new digest raw_data) = Node.GenerateID digest raw_data.
Proof.
  split; [|split].
  - rewrite GenerateID_digest. apply Z.mod_pos_bound. lia.
  - apply GenerateID_digest.
  - reflexivity.
Qed.

(** ** More on [Put] *)

Lemma Puts_contacts (node_ids : list Z) (b : Bucket.t) :
  within_capacity b ->
  Bucket.contacts_ (fold_left Bucket.after_Put node_ids b)
  = Bucket.contacts_ b ++ take (20 - Bucket.size b) node_ids.
Proof.
  revert b. induction node_ids as [|node_id node_ids IH]; intros b Hb; simpl fold_left.
  - rewrite take_nil, app_nil_r. reflexivity.
  - rewrite IH by (apply after_Put_within_capacity, Hb).
    destruct Hb as [Hk Hsize]. unfold Bucket.after_Put.
    destruct (Z.lt_ge_cases (Z.of_nat (Bucket.size b)) (Bucket.k_ b)) as [Hroom|Hfull].
    + rewrite Put_room by exact Hroom. unfold Bucket.size in *. cbn [Bucket.contacts_].
      rewrite length_app. cbn [length].
      replace (20 - length (Bucket.contacts_ b))%nat
        with (S (20 - (length (Bucket.contacts_ b) + 1)))%nat by lia.
      cbn [take]. rewrite <- app_assoc. reflexivity.
    + rewrite Put_full by exact Hfull. unfold Bucket.size in *.
      replace (20 - length (Bucket.contacts_ b))%nat with 0%nat by lia.
      reflexivity.
Qed.

(** X1: a constructed bucket that meets any sequence of [Put] calls holds
    the first 20 identifiers of the sequence, in the order they came; every
    later one is turned away. *)
Theorem Puts_keep_first_20
    (covered_distance_from covered_distance_to : Z) (node_ids : list Z) :
  Bucket.contacts_
    (fold_left Bucket.after_Put node_ids
       (Bucket.new covered_distance_from covered_distance_to))
  = take 20 node_ids.
Proof.
  rewrite Puts_contacts by apply new_within_capacity. reflexivity.
Qed.

(** X2: no sequence of [Put] calls, whether they return or throw, changes
    the covered range of a bucket or its capacity [k_]. *)
Theorem Puts_keep_range (b : Bucket.t) (node_ids : list Z) :
  Bucket.CoveredDistanceFrom (fold_left Bucket.after_Put node_ids b)
  = Bucket.CoveredDistanceFrom b
  /\ Bucket.CoveredDistanceTo (fold_left Bucket.after_Put node_ids b)
     = Bucket.CoveredDistanceTo b
  /\ Bucket.k_ (fold_left Bucket.after_Put node_ids b) = Bucket.k_ b.
Proof.
  revert b. induction node_ids as [|node_id node_ids IH]; intros b; simpl fold_left.
  - repeat split.
  - destruct (IH (Bucket.after_Put b node_id)) as (Hfrom & Hto & Hk).
    rewrite Hfrom, Hto, Hk. unfold Bucket.after_Put, Bucket.Put.
    destruct (Z.of_nat (length (Bucket.contacts_ b)) <? Bucket.k_ b); repeat split.
Qed.

(** ** The level [Push] writes *)

Lemma Push_level {Node : Type} (bl : BucketList.t) (other_node : Node) (distance : Z) :
  0 <= distance < 2 ^ 256 ->
  snd (BucketList.Push bl other_node distance) = Z.log2 (distance + 4).
Proof.
  intros Hd. unfold BucketList.Push. cbn [snd].
  assert (Hbig : 2 ^ 256 + 4 < 10 ^ cpp_dec_float_100.digits10) by (vm_compute; reflexivity).
  unfold cpp_dec_float_100.of_Z.
  rewrite (round_small distance 0) by (rewrite Z.abs_eq; lia).
  rewrite (round_small 4 0) by (rewrite Z.abs_eq; lia).
  unfold cpp_dec_float_100.add. cbn [cpp_dec_float_100.mantissa cpp_dec_float_100.exponent].
  change (Z.min 0 0) with 0. change (0 - 0) with 0.
  rewrite Z.pow_0_r, !Z.mul_1_r.
  rewrite round_small by (rewrite Z.abs_eq; lia).
  unfold cpp_dec_float_100.log2_trunc, cpp_dec_float_100.trunc.
  cbn [cpp_dec_float_100.mantissa cpp_dec_float_100.exponent].
  change (0 <=? 0) with true. cbv iota. rewrite Z.pow_0_r, Z.mul_1_r.
  unfold uint.wrap. apply Z.mod_small.
  split; [apply Z.log2_nonneg|].
  assert (Hlog : Z.log2 (distance + 4) < 257).
  { apply Z.log2_lt_pow2; [lia|].
    assert (Hpow : 2 ^ 257 = 2 * 2 ^ 256) by (vm_compute; reflexivity). lia. }
  assert (257 < 2 ^ 32) by (vm_compute; reflexivity). lia.
Qed.

Lemma AddToList_snd (n other_node : Node.t) :
  snd (Node.AddToList n other_node)
  = snd (BucketList.Push (Node.bucket_list_ n) other_node
           (Node.CalculateDistance n other_node)).
Proof. reflexivity. Qed.

Lemma pow2_160_lt_256 : 2 ^ 160 < 2 ^ 256.
Proof. apply Z.pow_lt_mono_r; lia. Qed.

Lemma pow2_le_160 (i : Z) : 0 <= i < 160 -> 2 ^ (i + 1) <= 2 ^ 160.
Proof. intros Hi. apply Z.pow_le_mono_r; lia. Qed.

Lemma new_lookup_Z (i : Z) :
  0 <= i < 160 ->
  BucketList.bucket_list_ BucketList.new !! Z.to_nat i = Some (bucket_of_index i).
Proof.
  intros Hi. apply new_lookup. split; [lia|]. rewrite Z2Nat.id by lia. reflexivity.
Qed.

(** X3: where a distance lies in the range of bucket i and at least four
    below its upper end, the level [Push] writes is i, the index of the
    bucket that covers the distance. *)
Theorem Push_level_in_range
    (bl : BucketList.t) (other_node : Node.t) (i distance : Z) :
  0 <= i < 160 ->
  2 ^ i <= distance ->
  distance + 4 < 2 ^ (i + 1) ->
  snd (BucketList.Push bl other_node distance) = i
  /\ exists b,
       BucketList.bucket_list_ BucketList.new !! Z.to_nat i = Some b
       /\ Bucket.covers b distance.
Proof.
  intros Hi Hlo Hhi.
  assert (Hpos : 0 < 2 ^ i) by (apply Z.pow_pos_nonneg; lia).
  pose proof (pow2_le_160 i Hi) as Hle. pose proof pow2_160_lt_256 as Hlt.
  split.
  - rewrite Push_level by lia. apply Z.log2_unique; [lia|].
    replace (Z.succ i) with (i + 1) by lia. lia.
  - exists (bucket_of_index i). split; [apply new_lookup_Z, Hi|].
    unfold Bucket.covers, bucket_of_index; simpl. lia.
Qed.

Lemma Push_level_in_range_witness :
  0 <= 3 < 160 /\ 2 ^ 3 <= 8 /\ 8 + 4 < 2 ^ (3 + 1)
  /\ snd (BucketList.Push BucketList.new (Node.mk 0 BucketList.new) 8) = 3
  /\ exists b,
       BucketList.bucket_list_ BucketList.new !! Z.to_nat 3 = Some b
       /\ Bucket.covers b 8.
Proof.
  assert (H1 : 0 <= 3 < 160) by lia.
  assert (H2 : 2 ^ 3 <= 8) by (simpl; lia).
  assert (H3 : 8 + 4 < 2 ^ (3 + 1)) by (simpl; lia).
  split; [exact H1|]. split; [exact H2|]. split; [exact H3|].
  exact (Push_level_in_range BucketList.new (Node.mk 0 BucketList.new) 3 8 H1 H2 H3).
Defined.

(** X4: for the three largest distances of the range of bucket i, from
    index 2 on, the level [Push] writes is i + 1: one more than the index of
    the bucket that covers the distance, and the bucket at that level, where
    there is one, does not cover it. *)
Theorem Push_level_one_up
    (bl : BucketList.t) (other_node : Node.t) (i distance : Z) :
  2 <= i < 160 ->
  2 ^ (i + 1) - 4 < distance < 2 ^ (i + 1) ->
  snd (BucketList.Push bl other_node distance) = i + 1
  /\ (exists b,
        BucketList.bucket_list_ BucketList.new !! Z.to_nat i = Some b
        /\ Bucket.covers b distance)
  /\ (forall b,
        BucketList.bucket_list_ BucketList.new !! Z.to_nat (i + 1) = Some b ->
        ~ Bucket.covers b distance).
Proof.
  intros Hi [Hlo Hhi].
  assert (Hfour : 2 ^ 2 <= 2 ^ i) by (apply Z.pow_le_mono_r; lia).
  change (2 ^ 2) with 4 in Hfour.
  assert (Hdouble : 2 ^ (i + 1) = 2 * 2 ^ i) by (rewrite Z.pow_add_r by lia; lia).
  assert (Hle : 2 ^ (i + 1) <= 2 ^ 160) by (apply pow2_le_160; lia).
  pose proof pow2_160_lt_256 as Hlt.
  split; [|split].
  - rewrite Push_level by lia. apply Z.log2_unique; [lia|].
    replace (Z.succ (i + 1)) with (i + 1 + 1) by lia.
    rewrite (Z.pow_add_r 2 (i + 1) 1) by lia. lia.
  - exists (bucket_of_index i). split; [apply new_lookup_Z; lia|].
    unfold Bucket.covers, bucket_of_index; simpl. lia.
  - intros b Hb Hcov. apply new_lookup in Hb as [Hrange ->].
    rewrite Z2Nat.id in Hcov by lia.
    unfold Bucket.covers, bucket_of_index in Hcov; simpl in Hcov. lia.
Qed.

Lemma Push_level_one_up_witness :
  2 <= 2 < 160 /\ 2 ^ (2 + 1) - 4 < 5 < 2 ^ (2 + 1)
  /\ snd (BucketList.Push BucketList.new (Node.mk 0 BucketList.new) 5) = 2 + 1
  /\ (exists b,
        BucketList.bucket_list_ BucketList.new !! Z.to_nat 2 = Some b
        /\ Bucket.covers b 5)
  /\ (forall b,
        BucketList.bucket_list_ BucketList.new !! Z.to_nat (2 + 1) = Some b ->
        ~ Bucket.covers b 5).
Proof.
  assert (H1 : 2 <= 2 < 160) by lia.
  assert (H2 : 2 ^ (2 + 1) - 4 < 5 < 2 ^ (2 + 1)) by (simpl; lia).
  split; [exact H1|]. split; [exact H2|].
  exact (Push_level_one_up BucketList.new (Node.mk 0 BucketList.new) 2 5 H1 H2).
Defined.

(** ** Distances between identifiers *)

Lemma lxor_below_2_160 (a b : Z) :
  0 <= a < 2 ^ 160 -> 0 <= b < 2 ^ 160 -> 0 <= Z.lxor a b < 2 ^ 160.
Proof.
  intros Ha Hb.
  assert (Hnonneg : 0 <= Z.lxor a b) by (apply Z.lxor_nonneg; lia).
  split; [exact Hnonneg|].
  destruct (Z.eq_dec (Z.lxor a b) 0) as [->|Hne]; [lia|].
  apply Z.log2_lt_pow2; [lia|].
  pose proof (Z.log2_lxor a b ltac:(lia) ltac:(lia)) as Hlog.
  assert (Hloga : Z.log2 a < 160).
  { destruct (Z.eq_dec a 0) as [->|Hne']; [simpl; lia|]. apply Z.log2_lt_pow2; lia. }
  assert (Hlogb : Z.log2 b < 160).
  { destruct (Z.eq_dec b 0) as [->|Hne']; [simpl; lia|]. apply Z.log2_lt_pow2; lia. }
  lia.
Qed.

Lemma distance_nonzero (n other_node : Node.t) :
  0 <= Node.GetID n < 2 ^ 160 ->
  0 <= Node.GetID other_node < 2 ^ 160 ->
  Node.GetID n <> Node.GetID other_node ->
  1 <= Node.CalculateDistance n other_node < 2 ^ 160.
Proof.
  unfold Node.CalculateDistance, Node.GetID, uint256.xor. intros Hn Ho Hne.
  pose proof (lxor_below_2_160 _ _ Hn Ho) as Hbound.
  assert (Z.lxor (Node.id_ n) (Node.id_ other_node) <> 0)
    by (intros Hz; apply Hne, Z.lxor_eq_0_iff, Hz).
  lia.
Qed.

(** X5: when a node records a node with another identifier, both of 160
    bits, the level written lies between 2 and 160: the buckets at index 0
    and 1 are never named, and 160, which is no index of the list, can be. *)
Theorem AddToList_level_bounds (n other_node : Node.t) :
  0 <= Node.GetID n < 2 ^ 160 ->
  0 <= Node.GetID other_node < 2 ^ 160 ->
  Node.GetID n <> Node.GetID other_node ->
  2 <= snd (Node.AddToList n other_node) <= 160
  /\ BucketList.bucket_list_ BucketList.new !! 160%nat = None.
Proof.
  intros Hn Ho Hne. pose proof (distance_nonzero n other_node Hn Ho Hne) as Hd.
  pose proof pow2_160_lt_256 as Hlt.
  split.
  - rewrite AddToList_snd, Push_level by lia. split.
    + apply Z.log2_le_pow2; [lia|]. change (2 ^ 2) with 4. lia.
    + enough (Z.log2 (Node.CalculateDistance n other_node + 4) < 161) by lia.
      apply Z.log2_lt_pow2; [lia|].
      assert (Hpow : 2 ^ 161 = 2 * 2 ^ 160) by (vm_compute; reflexivity).
      assert (Hbig : 4 < 2 ^ 160) by (vm_compute; reflexivity). lia.
  - destruct (BucketList.bucket_list_ BucketList.new !! 160%nat) as [b|] eqn:Hb; [|reflexivity].
    apply new_lookup in Hb as [Hrange _]. lia.
Qed.

Lemma AddToList_level_bounds_witness :
  0 <= Node.GetID (Node.mk 5 BucketList.new) < 2 ^ 160
  /\ 0 <= Node.GetID (Node.mk 12 BucketList.new) < 2 ^ 160
  /\ Node.GetID (Node.mk 5 BucketList.new) <> Node.GetID (Node.mk 12 BucketList.new)
  /\ 2 <= snd (Node.AddToList (Node.mk 5 BucketList.new) (Node.mk 12 BucketList.new)) <= 160
  /\ BucketList.bucket_list_ BucketList.new !! 160%nat = None.
Proof.
  assert (Hpos : 12 < 2 ^ 160) by (vm_compute; reflexivity).
  assert (H1 : 0 <= Node.GetID (Node.mk 5 BucketList.new) < 2 ^ 160) by (simpl; lia).
  assert (H2 : 0 <= Node.GetID (Node.mk 12 BucketList.new) < 2 ^ 160) by (simpl; lia).
  assert (H3 : Node.GetID (Node.mk 5 BucketList.new) <> Node.GetID (Node.mk 12 BucketList.new))
    by (simpl; lia).
  split; [exact H1|]. split; [exact H2|]. split; [exact H3|].
  exact (AddToList_level_bounds (Node.mk 5 BucketList.new) (Node.mk 12 BucketList.new) H1 H2 H3).
Defined.

(** X6: seen from one node, two nodes are at the same distance exactly when
    they have the same identifier; a node is at distance 0 exactly when its
    identifier is the node's own; and the node at a given distance is the
    one whose identifier is the node's own XOR that distance. *)
Theorem CalculateDistance_injective (n a b : Node.t) (distance : Z) :
  (Node.CalculateDistance n a = Node.CalculateDistance n b <-> Node.GetID a = Node.GetID b)
  /\ (Node.CalculateDistance n a = 0 <-> Node.GetID n = Node.GetID a)
  /\ (Node.CalculateDistance n a = distance <->
      Node.GetID a = Z.lxor (Node.GetID n) distance).
Proof.
  unfold Node.CalculateDistance, Node.GetID, uint256.xor. split; [|split].
  - split.
    + intros Heq. apply (f_equal (Z.lxor (Node.id_ n))) in Heq.
      rewrite <- !Z.lxor_assoc, Z.lxor_nilpotent, !Z.lxor_0_l in Heq. exact Heq.
    + intros ->. reflexivity.
  - apply Z.lxor_eq_0_iff.
  - split.
    + intros <-. rewrite <- Z.lxor_assoc, Z.lxor_nilpotent, Z.lxor_0_l. reflexivity.
    + intros ->. rewrite <- Z.lxor_assoc, Z.lxor_nilpotent, Z.lxor_0_l. reflexivity.
Qed.

(** X7: for two nodes with different identifiers of 160 bits, the distance
    lies from 1 up to 2^160, and exactly one bucket of the constructed list
    covers it: the one whose index is the binary logarithm of the distance. *)
Theorem distance_has_one_bucket (n other_node : Node.t) :
  0 <= Node.GetID n < 2 ^ 160 ->
  0 <= Node.GetID other_node < 2 ^ 160 ->
  Node.GetID n <> Node.GetID other_node ->
  1 <= Node.CalculateDistance n other_node < 2 ^ 160
  /\ (exists b,
        BucketList.bucket_list_ BucketList.new
          !! Z.to_nat (Z.log2 (Node.CalculateDistance n other_node)) = Some b
        /\ Bucket.covers b (Node.CalculateDistance n other_node))
  /\ (forall (j : nat) (b : Bucket.t),
        BucketList.bucket_list_ BucketList.new !! j = Some b ->
        Bucket.covers b (Node.CalculateDistance n other_node) ->
        j = Z.to_nat (Z.log2 (Node.CalculateDistance n other_node))).
Proof.
  intros Hn Ho Hne. pose proof (distance_nonzero n other_node Hn Ho Hne) as Hd.
  set (d := Node.CalculateDistance n other_node) in *.
  assert (Hlog : 0 <= Z.log2 d < 160).
  { split; [apply Z.log2_nonneg|]. apply Z.log2_lt_pow2; lia. }
  split; [exact Hd|]. split.
  - exists (bucket_of_index (Z.log2 d)). split; [apply new_lookup_Z, Hlog|].
    apply covers_bucket_of_index; [lia|]. split; [lia|reflexivity].
  - intros j b Hb Hcov. apply new_lookup in Hb as [Hj ->].
    apply covers_bucket_of_index in Hcov as [_ Hcov]; lia.
Qed.

Lemma distance_has_one_bucket_witness :
  0 <= Node.GetID (Node.mk 5 BucketList.new) < 2 ^ 160
  /\ 0 <= Node.GetID (Node.mk 12 BucketList.new) < 2 ^ 160
  /\ Node.GetID (Node.mk 5 BucketList.new) <> Node.GetID (Node.mk 12 BucketList.new)
  /\ 1 <= Node.CalculateDistance (Node.mk 5 BucketList.new) (Node.mk 12 BucketList.new) < 2 ^ 160
  /\ (exists b,
        BucketList.bucket_list_ BucketList.new
          !! Z.to_nat (Z.log2 (Node.CalculateDistance (Node.mk 5 BucketList.new)
                                 (Node.mk 12 BucketList.new))) = Some b
        /\ Bucket.covers b (Node.CalculateDistance (Node.mk 5 BucketList.new)
                              (Node.mk 12 BucketList.new)))
  /\ (forall (j : nat) (b : Bucket.t),
        BucketList.bucket_list_ BucketList.new !! j = Some b ->
        Bucket.covers b (Node.CalculateDistance (Node.mk 5 BucketList.new)
                           (Node.mk 12 BucketList.new)) ->
        j = Z.to_nat (Z.log2 (Node.CalculateDistance (Node.mk 5 BucketList.new)
                                (Node.mk 12 BucketList.new)))).
Proof.
  assert (Hpos : 12 < 2 ^ 160) by (vm_compute; reflexivity).
  assert (H1 : 0 <= Node.GetID (Node.mk 5 BucketList.new) < 2 ^ 160) by (simpl; lia).
  assert (H2 : 0 <= Node.GetID (Node.mk 12 BucketList.new) < 2 ^ 160) by (simpl; lia).
  assert (H3 : Node.GetID (Node.mk 5 BucketList.new) <> Node.GetID (Node.mk 12 BucketList.new))
    by (simpl; lia).
  split; [exact H1|]. split; [exact H2|]. split; [exact H3|].
  exact (distance_has_one_bucket (Node.mk 5 BucketList.new) (Node.mk 12 BucketList.new) H1 H2 H3).
Defined.

(** X8: the distance from a to c is the XOR of the distances from a to b
    and from b to c, and for identifiers that are not negative it is at most
    their sum. *)
Theorem CalculateDistance_triangle (a b c : Node.t) :
  0 <= Node.GetID a -> 0 <= Node.GetID b -> 0 <= Node.GetID c ->
  Node.CalculateDistance a c
  = Z.lxor (Node.CalculateDistance a b) (Node.CalculateDistance b c)
  /\ Node.CalculateDistance a c
     <= Node.CalculateDistance a b + Node.CalculateDistance b c.
Proof.
  unfold Node.CalculateDistance, Node.GetID, uint256.xor. intros Ha Hb Hc.
  assert (Hxor : Z.lxor (Node.id_ a) (Node.id_ c)
                 = Z.lxor (Z.lxor (Node.id_ a) (Node.id_ b))
                          (Z.lxor (Node.id_ b) (Node.id_ c))).
  { rewrite Z.lxor_assoc, <- (Z.lxor_assoc (Node.id_ b)), Z.lxor_nilpotent, Z.lxor_0_l.
    reflexivity. }
  split; [exact Hxor|]. rewrite Hxor.
  pose proof (Z.add_lxor_2land (Z.lxor (Node.id_ a) (Node.id_ b))
                (Z.lxor (Node.id_ b) (Node.id_ c))) as Hadd.
  assert (0 <= Z.land (Z.lxor (Node.id_ a) (Node.id_ b)) (Z.lxor (Node.id_ b) (Node.id_ c))).
  { apply Z.land_nonneg. left. apply Z.lxor_nonneg. lia. }
  lia.
Qed.

Lemma CalculateDistance_triangle_witness :
  0 <= Node.GetID (Node.mk 5 BucketList.new)
  /\ 0 <= Node.GetID (Node.mk 12 BucketList.new)
  /\ 0 <= Node.GetID (Node.mk 6 BucketList.new)
  /\ Node.CalculateDistance (Node.mk 5 BucketList.new) (Node.mk 6 BucketList.new)
     = Z.lxor (Node.CalculateDistance (Node.mk 5 BucketList.new) (Node.mk 12 BucketList.new))
              (Node.CalculateDistance (Node.mk 12 BucketList.new) (Node.mk 6 BucketList.new))
  /\ Node.CalculateDistance (Node.mk 5 BucketList.new) (Node.mk 6 BucketList.new)
     <= Node.CalculateDistance (Node.mk 5 BucketList.new) (Node.mk 12 BucketList.new)
        + Node.CalculateDistance (Node.mk 12 BucketList.new) (Node.mk 6 BucketList.new).
Proof.
  assert (H1 : 0 <= Node.GetID (Node.mk 5 BucketList.new)) by (simpl; lia).
  assert (H2 : 0 <= Node.GetID (Node.mk 12 BucketList.new)) by (simpl; lia).
  assert (H3 : 0 <= Node.GetID (Node.mk 6 BucketList.new)) by (simpl; lia).
  split; [exact H1|]. split; [exact H2|]. split; [exact H3|].
  exact (CalculateDistance_triangle (Node.mk 5 BucketList.new) (Node.mk 12 BucketList.new)
           (Node.mk 6 BucketList.new) H1 H2 H3).
Defined.

(** X9: two constructed nodes are at a distance below 2^160; it is 0
    exactly when the 160 bits kept of their digests agree, as for two nodes
    constructed from the same data, and then no bucket of the node's list
    covers it. *)
Theorem constructed_nodes_distance (digest : string -> Z) (raw_data other_data : string) :
  0 <= Node.CalculateDistance (Node.new digest raw_data) (Node.new digest other_data)
  < 2 ^ 160
  /\ (Node.CalculateDistance (Node.new digest raw_data) (Node.new digest other_data) = 0
      <-> digest raw_data mod 2 ^ 160 = digest other_data mod 2 ^ 160)
  /\ Node.CalculateDistance (Node.new digest raw_data) (Node.new digest raw_data) = 0
  /\ (forall b,
        b ∈ BucketList.bucket_list_ (Node.bucket_list_ (Node.new digest raw_data)) ->
        ~ Bucket.covers b 0).
Proof.
  unfold Node.CalculateDistance, Node.GetID, uint256.xor. cbn [Node.new Node.id_].
  split; [|split; [|split]].
  - apply lxor_below_2_160; rewrite GenerateID_digest; apply Z.mod_pos_bound; lia.
  - rewrite !GenerateID_digest. apply Z.lxor_eq_0_iff.
  - apply Z.lxor_nilpotent.
  - intros b Hin Hcov. cbn [Node.bucket_list_] in Hin.
    destruct new_partitions as [Hunion _].
    assert (Hd : 1 <= 0 < 2 ^ 160) by (apply Hunion; exists b; split; assumption). lia.
Qed.

(** X10: the level [Push] writes does not fall when the distance grows. *)
Theorem Push_level_monotone
    (bl : BucketList.t) (other_node : Node.t) (distance distance' : Z) :
  0 <= distance -> distance <= distance' -> distance' < 2 ^ 256 ->
  snd (BucketList.Push bl other_node distance)
  <= snd (BucketList.Push bl other_node distance').
Proof.
  intros Hlo Hle Hhi. rewrite !Push_level by lia. apply Z.log2_le_mono. lia.
Qed.

Lemma Push_level_monotone_witness :
  0 <= 5 /\ 5 <= 100 /\ 100 < 2 ^ 256
  /\ snd (BucketList.Push BucketList.new (Node.mk 0 BucketList.new) 5)
     <= snd (BucketList.Push BucketList.new (Node.mk 0 BucketList.new) 100).
Proof.
  assert (H1 : 0 <= 5) by lia.
  assert (H2 : 5 <= 100) by lia.
  assert (H3 : 100 < 2 ^ 256) by (vm_compute; reflexivity).
  split; [exact H1|]. split; [exact H2|]. split; [exact H3|].
  exact (Push_level_monotone BucketList.new (Node.mk 0 BucketList.new) 5 100 H1 H2 H3).
Defined.

(** ** The bucket bounds as numbers *)




